(** * AetherCore identity protocol: genesis hash derivation and verification

    A shallow embedding of [firmware/ralphie_esp32/identity.h]
    ([bytesToHex], [blake3_hash], [generateGenesisHash],
    [createIdentityBlock], [verifyIdentityBlock], [printIdentityBlock]) and
    the properties of the protocol that follow from the code.

    Conventions of the embedding.
    - A C [char] and a [uint8_t] are both one [byte] cell.
    - A character array is the list of its cells; [p[i] = c] is the list
      update [<[i:=c]>], which leaves a list unchanged out of range (the C
      code would overrun the array there; every theorem that depends on a
      write states the array size it needs).
    - A [const char*] argument is the list of cells found at the pointer.
      The text it denotes is [c_str]: the cells before the first NUL.
    - [size_t] counters are [nat]; the code only counts up to 64.
    - The BLAKE3 library is external: it enters as a function from the
      message to the digest, with the digest width as a hypothesis. *)

From Stdlib Require Import ZArith List Lia Bool.
From Stdlib Require Import Strings.Byte Strings.String.
From stdpp Require Import base list.
Import ListNotations.

(** ** C strings and the C library functions the code calls *)

Definition NUL : byte := x00.

(** Unsigned value of a cell, as the integer promotions give it. *)
Definition byte_val (c : byte) : Z := Z.of_N (Byte.to_N c).

(** The text at a [const char*]: every cell before the first NUL. *)
Fixpoint c_str (p : list byte) : list byte :=
  match p with
  | [] => []
  | c :: p' => if Byte.eqb c NUL then [] else c :: c_str p'
  end.

Definition strlen (p : list byte) : nat := length (c_str p).

(** A list that is itself a text: no NUL inside. *)
Definition is_c_string (s : list byte) : bool :=
  forallb (fun c => negb (Byte.eqb c NUL)) s.

(** ISO C [strcmp]: the cells are compared as [unsigned char] up to and
    including the first NUL; the result is zero exactly for equal texts.
    The end of a list reads as the terminator. *)
Fixpoint strcmp (s1 s2 : list byte) : Z :=
  match s1, s2 with
  | [], [] => 0
  | [], c2 :: _ => (0 - byte_val c2)%Z
  | c1 :: _, [] => (byte_val c1 - 0)%Z
  | c1 :: r1, c2 :: r2 =>
      if Byte.eqb c1 c2
      then (if Byte.eqb c1 NUL then 0%Z else strcmp r1 r2)
      else (byte_val c1 - byte_val c2)%Z
  end.

(** A literal of the source as cells. *)
Definition lit (s : string) : list byte := list_byte_of_string s.

(** ** Data model *)

Inductive PlatformType : Set :=
  | MCU
  | SBC.

(** [struct IdentityBlock]: [char hardware_id[18]], [char public_key[65]],
    [char genesis_hash[65]] and the platform tag. *)
Record IdentityBlock : Type := mkIdentityBlock {
  hardware_id : list byte;
  public_key : list byte;
  genesis_hash : list byte;
  platform_type : PlatformType
}.

(** The objects the functions write through their pointer parameters: the
    block behind [IdentityBlock* block], and the local array
    [char expected_hash[65]] of [verifyIdentityBlock]. *)
Record Memory : Type := mkMemory {
  block : IdentityBlock;
  expected_hash : list byte
}.

(** The character arrays a [char*] of the code can point to. *)
Inductive buffer : Set :=
  | block_hardware_id
  | block_public_key
  | block_genesis_hash
  | local_expected_hash.

Definition load (b : buffer) (m : Memory) : list byte :=
  match b with
  | block_hardware_id => hardware_id (block m)
  | block_public_key => public_key (block m)
  | block_genesis_hash => genesis_hash (block m)
  | local_expected_hash => expected_hash m
  end.

Definition store (b : buffer) (v : list byte) (m : Memory) : Memory :=
  let k := block m in
  match b with
  | block_hardware_id =>
      mkMemory (mkIdentityBlock v (public_key k) (genesis_hash k) (platform_type k))
               (expected_hash m)
  | block_public_key =>
      mkMemory (mkIdentityBlock (hardware_id k) v (genesis_hash k) (platform_type k))
               (expected_hash m)
  | block_genesis_hash =>
      mkMemory (mkIdentityBlock (hardware_id k) (public_key k) v (platform_type k))
               (expected_hash m)
  | local_expected_hash => mkMemory k v
  end.

(** [b[i] = c]. *)
Definition poke (b : buffer) (i : nat) (c : byte) (m : Memory) : Memory :=
  store b (<[i:=c]> (load b m)) m.

(** [block->platform_type = t]. *)
Definition set_platform_type (t : PlatformType) (m : Memory) : Memory :=
  let k := block m in
  mkMemory (mkIdentityBlock (hardware_id k) (public_key k) (genesis_hash k) t)
           (expected_hash m).

(** The declared sizes of the arrays. *)
Definition sized (m : Memory) : Prop :=
  length (hardware_id (block m)) = 18
  /\ length (public_key (block m)) = 65
  /\ length (genesis_hash (block m)) = 65
  /\ length (expected_hash m) = 65.

(** ISO C [strncpy (dst, src, n)]: exactly [n] cells of [dst] are written,
    the text of [src] first and NUL from its end on. *)
Definition strncpy (dst : buffer) (src : list byte) (n : nat) (m : Memory) : Memory :=
  foldl (fun m i => poke dst i (nth i (c_str src) NUL) m) m (seq 0 n).

(** ** Hex encoding *)

(** [const char hex_chars[] = "0123456789abcdef"] (17 cells with the
    terminator). *)
Definition hex_chars : list byte := lit "0123456789abcdef" ++ [NUL].

(** [(b >> 4) & 0x0F] and [b & 0x0F], on the promoted value. *)
Definition hi_nibble (b : byte) : Z := Z.land (Z.shiftr (byte_val b) 4) 0x0F.
Definition lo_nibble (b : byte) : Z := Z.land (byte_val b) 0x0F.

(** [hex_chars[k]]. *)
Definition hex_char (k : Z) : byte := nth (Z.to_nat k) hex_chars NUL.

(** One turn of the loop of [bytesToHex]. *)
Definition bytesToHex_step (data : list byte) (hex_out : buffer)
    (m : Memory) (i : nat) : Memory :=
  let m := poke hex_out (i * 2) (hex_char (hi_nibble (nth i data x00))) m in
  poke hex_out (i * 2 + 1) (hex_char (lo_nibble (nth i data x00))) m.

Definition bytesToHex (data : list byte) (len : nat) (hex_out : buffer)
    (m : Memory) : Memory :=
  let m := foldl (bytesToHex_step data hex_out) m (seq 0 len) in
  poke hex_out (len * 2) NUL m.

(** The encoding as the protocol describes it: every byte expands to two
    digits of the table, high nibble first, nothing in between. *)
Definition hex_pair (b : byte) : list byte :=
  [hex_char (hi_nibble b); hex_char (lo_nibble b)].

Definition hex_encode (data : list byte) : list byte := flat_map hex_pair data.

(** A lowercase hexadecimal digit, by character code: ['0'..'9'] or
    ['a'..'f']. *)
Definition is_lower_hex (c : byte) : bool :=
  let v := byte_val c in
  ((48 <=? v)%Z && (v <=? 57)%Z) || ((97 <=? v)%Z && (v <=? 102)%Z).

(** ** A concrete digest for examples

    Not a cryptographic hash: the first 32 cells of the message, padded
    with zero cells. It has the width the code expects and is used to run
    the functions on concrete inputs. *)
Definition prefix_digest (msg : list byte) : list byte :=
  take 32 (msg ++ replicate 32 x00).

(** Value of a hexadecimal digit character, and the byte a pair of
    digits stands for: the inverse reading of [hex_pair], used to show
    that the encoding loses nothing. *)
Definition hex_value (c : byte) : Z :=
  let v := byte_val c in
  if (v <=? 57)%Z then (v - 48)%Z else (v - 87)%Z.

Definition unhex_pair (c1 c2 : byte) : option byte :=
  Byte.of_N (Z.to_N (16 * hex_value c1 + hex_value c2)).

Fixpoint hex_decode (s : list byte) : list (option byte) :=
  match s with
  | c1 :: c2 :: r => unhex_pair c1 c2 :: hex_decode r
  | _ => []
  end.

(** The cells [data[0]], ..., [data[len-1]] that a loop over [len] reads. *)
Definition cells (data : list byte) (len : nat) : list byte :=
  map (fun i => nth i data x00) (seq 0 len).

(** ** The protocol functions *)

(** [BLAKE3_OUT_LEN] of the library's [blake3.h]: the digest width. *)
Definition BLAKE3_OUT_LEN : nat := 32.

Section Protocol.

(** The external hash: [blake3_hasher_init], [_update] with the message,
    [_finalize] into [BLAKE3_OUT_LEN] cells. *)
Variable blake3 : list byte -> list byte.

(** [blake3_hash (input, input_len, output)]: the digest of the first
    [input_len] cells of [input]; the result is the content of [output]. *)
Definition blake3_hash (input : list byte) (input_len : nat) : list byte :=
  blake3 (take input_len input).

(** Arduino [String] built from a [const char*] copies the text at the
    pointer; [+] concatenates. *)
Definition String_ (p : list byte) : list byte := c_str p.

Definition generateGenesisHash (hardware_id public_key salt : list byte)
    (genesis_hash_out : buffer) (m : Memory) : Memory :=
  let preimage := String_ hardware_id ++ String_ public_key ++ String_ salt in
  let hash_bytes := blake3_hash preimage (length preimage) in
  bytesToHex hash_bytes 32 genesis_hash_out m.

Definition createIdentityBlock (hardware_id public_key salt : list byte)
    (platform_type : PlatformType) (m : Memory) : Memory :=
  let m := strncpy block_hardware_id hardware_id 17 m in
  let m := poke block_hardware_id 17 NUL m in
  let m := strncpy block_public_key public_key 64 m in
  let m := poke block_public_key 64 NUL m in
  let m := generateGenesisHash hardware_id public_key salt block_genesis_hash m in
  set_platform_type platform_type m.

(** The result and the memory after the call. *)
Definition verifyIdentityBlock (salt : list byte) (m : Memory) : bool * Memory :=
  let m' :=
    generateGenesisHash (load block_hardware_id m) (load block_public_key m)
                        salt local_expected_hash m in
  (Z.eqb (strcmp (load block_genesis_hash m') (load local_expected_hash m')) 0, m').

(** The genesis hash as the protocol states it:
    hex (Hash (hardware_id ++ public_key ++ salt)). *)
Definition genesis_hash_of (h p s : list byte) : list byte :=
  hex_encode (blake3 (h ++ p ++ s)).

End Protocol.

(** ** Sample data

    The reference triple of the protocol, an oversized hardware id, and a
    memory whose arrays have the declared sizes and arbitrary content. *)
Definition sample_hardware_id : list byte := lit "AA:BB:CC:DD:EE:FF".

Definition sample_public_key : list byte :=
  lit "0000000000000000000000000000000000000000000000000000000000000000".

Definition sample_salt : list byte := lit "test-salt".

Definition oversized_hardware_id : list byte := lit "AA:BB:CC:DD:EE:FF:00".

Definition stale_memory : Memory :=
  mkMemory (mkIdentityBlock (replicate 18 xff) (replicate 65 xff)
                            (replicate 65 xff) MCU)
           (replicate 65 xee).

(** The reference block: [createIdentityBlock] run on the reference triple
    with the sample digest. *)
Definition reference_memory : Memory :=
  createIdentityBlock prefix_digest sample_hardware_id sample_public_key
                      sample_salt SBC stale_memory.

(** ** Serial output

    [printIdentityBlock] writes to the Arduino [Serial] stream. The stream
    is the list of cells written so far; [Serial.print] of a [const char*]
    appends its text, [Serial.println] appends the text and the line end
    CR LF of the Arduino [Print] class. *)
Definition CR : byte := x0d.
Definition LF : byte := x0a.

Definition Serial_print (s : list byte) (stream : list byte) : list byte :=
  stream ++ c_str s.

Definition Serial_println (s : list byte) (stream : list byte) : list byte :=
  stream ++ c_str s ++ [CR; LF].

(** [a == b] on the enumeration. *)
Definition PlatformType_eqb (a b : PlatformType) : bool :=
  match a, b with
  | MCU, MCU | SBC, SBC => true
  | _, _ => false
  end.

Definition printIdentityBlock (b : IdentityBlock) (stream : list byte) : list byte :=
  let stream := Serial_println (lit "=== Identity Block ===") stream in
  let stream := Serial_print (lit "Hardware ID: ") stream in
  let stream := Serial_println (hardware_id b) stream in
  let stream := Serial_print (lit "Public Key: ") stream in
  let stream := Serial_println (public_key b) stream in
  let stream := Serial_print (lit "Genesis Hash: ") stream in
  let stream := Serial_println (genesis_hash b) stream in
  let stream := Serial_print (lit "Platform Type: ") stream in
  let stream :=
    Serial_println
      (if PlatformType_eqb (platform_type b) MCU then lit "MCU" else lit "SBC")
      stream in
  Serial_println (lit "======================") stream.

(** A character array that holds a terminator: the text at its first cell
    ends inside the array. [verifyIdentityBlock] reads [hardware_id] and
    [public_key] of the block as texts; in the C struct the arrays lie one
    after the other, so a field without a terminator would be read on
    into the next one. The properties of verification on arbitrary blocks
    are stated for blocks whose two fields hold a terminator, as every
    block written by [createIdentityBlock] does. *)
Definition has_terminator (a : list byte) : bool :=
  existsb (fun c => Byte.eqb c NUL) a.

(** A text that fits on one printed line: no CR inside. *)
Definition one_line (s : list byte) : bool :=
  forallb (fun c => negb (Byte.eqb c CR)) s.

(** ** Cells and C strings *)

Lemma byte_eqb_eq (a b : byte) : Byte.eqb a b = true <-> a = b.
Proof.
  split; [apply Byte.byte_dec_bl | apply Byte.byte_dec_lb].
Qed.

Lemma byte_eqb_neq (a b : byte) : Byte.eqb a b = false <-> a <> b.
Proof.
  rewrite <- byte_eqb_eq. destruct (Byte.eqb a b); split; congruence.
Qed.

Lemma byte_val_inj (a b : byte) : byte_val a = byte_val b -> a = b.
Proof.
  unfold byte_val. intros H. apply N2Z.inj in H.
  pose proof (Byte.of_to_N a) as Ha. pose proof (Byte.of_to_N b) as Hb.
  rewrite H in Ha. congruence.
Qed.

Lemma byte_val_NUL (c : byte) : byte_val c = 0%Z <-> c = NUL.
Proof.
  split; [intros H; apply byte_val_inj; exact H | intros ->; reflexivity].
Qed.

Lemma is_c_string_cons c s :
  is_c_string (c :: s) = true <-> c <> NUL /\ is_c_string s = true.
Proof.
  unfold is_c_string. simpl. rewrite andb_true_iff, negb_true_iff, byte_eqb_neq.
  reflexivity.
Qed.

Lemma is_c_string_app s1 s2 :
  is_c_string (s1 ++ s2) = true <-> is_c_string s1 = true /\ is_c_string s2 = true.
Proof.
  unfold is_c_string. rewrite forallb_app, andb_true_iff. reflexivity.
Qed.

Lemma is_c_string_take n s : is_c_string s = true -> is_c_string (take n s) = true.
Proof.
  intros H. rewrite <- (take_drop n s) in H. apply is_c_string_app in H. tauto.
Qed.

Lemma c_str_is_c_string p : is_c_string (c_str p) = true.
Proof.
  induction p as [|c p IH]; simpl; [reflexivity|].
  destruct (Byte.eqb c NUL) eqn:E; [reflexivity|].
  apply is_c_string_cons. split; [apply byte_eqb_neq; exact E | exact IH].
Qed.

(** A text followed by a terminator reads back as itself, whatever comes
    after the terminator. *)
Lemma c_str_app_NUL s r : is_c_string s = true -> c_str (s ++ NUL :: r) = s.
Proof.
  induction s as [|c s IH]; simpl; intros H; [reflexivity|].
  apply is_c_string_cons in H. destruct H as [Hc Hs].
  apply byte_eqb_neq in Hc. rewrite Hc, IH by exact Hs. reflexivity.
Qed.

Lemma c_str_id s : is_c_string s = true -> c_str s = s.
Proof.
  induction s as [|c s IH]; simpl; intros H; [reflexivity|].
  apply is_c_string_cons in H. destruct H as [Hc Hs].
  apply byte_eqb_neq in Hc. rewrite Hc, IH by exact Hs. reflexivity.
Qed.

Lemma c_str_padded s k r :
  is_c_string s = true -> c_str (s ++ replicate k NUL ++ NUL :: r) = s.
Proof.
  intros H. destruct k as [|k]; simpl; apply c_str_app_NUL; exact H.
Qed.

(** The text of a terminated array does not depend on the cells that
    follow the array in memory. *)
Lemma c_str_terminated_app a next :
  has_terminator a = true -> c_str (a ++ next) = c_str a.
Proof.
  induction a as [|c a IH]; simpl; [discriminate|].
  destruct (Byte.eqb c NUL); [reflexivity|].
  simpl. intros H. rewrite IH by exact H. reflexivity.
Qed.

(** [strcmp] returns zero exactly when the two texts are the same. *)
Lemma strcmp_zero_iff s1 s2 : strcmp s1 s2 = 0%Z <-> c_str s1 = c_str s2.
Proof.
  revert s2. induction s1 as [|c1 r1 IH]; intros [|c2 r2]; simpl.
  - tauto.
  - destruct (Byte.eqb c2 NUL) eqn:E.
    + apply byte_eqb_eq in E. subst c2. split; reflexivity.
    + apply byte_eqb_neq in E. split; [|discriminate].
      intros H. exfalso. apply E, byte_val_NUL. lia.
  - destruct (Byte.eqb c1 NUL) eqn:E.
    + apply byte_eqb_eq in E. subst c1. split; reflexivity.
    + apply byte_eqb_neq in E. split; [|discriminate].
      intros H. exfalso. apply E, byte_val_NUL. lia.
  - destruct (Byte.eqb c1 c2) eqn:E12.
    + apply byte_eqb_eq in E12. subst c2.
      destruct (Byte.eqb c1 NUL); [tauto|].
      rewrite IH. split; [congruence | intros H; injection H; tauto].
    + apply byte_eqb_neq in E12. split.
      * intros H. exfalso. apply E12, byte_val_inj. lia.
      * intros H. exfalso.
        destruct (Byte.eqb c1 NUL) eqn:E1, (Byte.eqb c2 NUL) eqn:E2;
          try discriminate.
        -- apply byte_eqb_eq in E1, E2. congruence.
        -- injection H. intros _ Hc. congruence.
Qed.

(** ** Memory: loads, stores and what a store leaves alone *)

Lemma load_store_eq b v m : load b (store b v m) = v.
Proof. destruct b; reflexivity. Qed.

Lemma load_store_ne b b' v m : b <> b' -> load b' (store b v m) = load b' m.
Proof. destruct b, b'; intros H; try reflexivity; congruence. Qed.

Lemma store_store b v v' m : store b v (store b v' m) = store b v m.
Proof. destruct b; reflexivity. Qed.

Lemma store_load b m : store b (load b m) m = m.
Proof. destruct m as [[h p g t] e], b; reflexivity. Qed.

Lemma platform_type_store b v m :
  platform_type (block (store b v m)) = platform_type (block m).
Proof. destruct b; reflexivity. Qed.

(** A store into the local array of the verifier leaves the block alone. *)
Lemma block_store_local v m : block (store local_expected_hash v m) = block m.
Proof. reflexivity. Qed.

(** A loop whose every turn rewrites one array is one store of the array
    the loop computes. *)
Lemma foldl_store {X} (b : buffer) (g : Memory -> X -> Memory)
    (gl : list byte -> X -> list byte) :
  (forall m x, g m x = store b (gl (load b m) x) m) ->
  forall l m, foldl g m l = store b (foldl gl (load b m) l) m.
Proof.
  intros Hg l. induction l as [|x l IH]; intros m; simpl.
  - symmetry. apply store_load.
  - rewrite IH, Hg, load_store_eq, store_store. reflexivity.
Qed.

(** ** Loops that fill an array from the left *)

Lemma insert_at_end {A} (pre : list A) (x y : A) (r : list A) :
  <[length pre:=y]> (pre ++ x :: r) = pre ++ y :: r.
Proof.
  replace (length pre) with (length pre + 0) by lia.
  rewrite insert_app_r. reflexivity.
Qed.

Lemma drop_cons_lt {A} (d : list A) (n : nat) :
  n < length d -> exists x, drop n d = x :: drop (S n) d.
Proof.
  intros H. destruct (lookup_lt_is_Some_2 d n H) as [x Hx].
  exists x. apply drop_S. exact Hx.
Qed.

(** Writing [f 0], ..., [f (n-1)] at the indices [0..n-1]. *)
Lemma fill_seq (f : nat -> byte) (n : nat) (d : list byte) :
  n <= length d ->
  foldl (fun d i => <[i:=f i]> d) d (seq 0 n) = map f (seq 0 n) ++ drop n d.
Proof.
  induction n as [|n IH]; intros Hn.
  - simpl. rewrite drop_0. reflexivity.
  - rewrite seq_S, foldl_snoc, map_app, IH by lia. simpl.
    destruct (drop_cons_lt d n) as [x Hx]; [lia|]. rewrite Hx.
    replace n with (length (map f (seq 0 n))) at 1
      by (rewrite length_map, length_seq; reflexivity).
    rewrite insert_at_end, <- app_assoc. reflexivity.
Qed.

Lemma cells_S data n : cells data (S n) = cells data n ++ [nth n data x00].
Proof. unfold cells. rewrite seq_S, map_app. reflexivity. Qed.

Lemma length_cells data n : length (cells data n) = n.
Proof. unfold cells. rewrite length_map, length_seq. reflexivity. Qed.

Lemma map_nth_seq {A} (d : A) (l : list A) :
  map (fun i => nth i l d) (seq 0 (length l)) = l.
Proof.
  induction l as [|x l IH] using rev_ind; [reflexivity|].
  rewrite length_app. simpl. rewrite Nat.add_1_r, seq_S, map_app. simpl.
  rewrite app_nth2, Nat.sub_diag by lia. simpl. f_equal.
  rewrite <- IH at 2. apply map_ext_in. intros i Hi.
  apply in_seq in Hi. apply app_nth1. lia.
Qed.

(** Reading exactly the cells of an array gives the array. *)
Lemma cells_all data : cells data (length data) = data.
Proof. apply map_nth_seq. Qed.

Lemma hex_encode_app d1 d2 : hex_encode (d1 ++ d2) = hex_encode d1 ++ hex_encode d2.
Proof. unfold hex_encode. apply flat_map_app. Qed.

Lemma length_hex_encode d : length (hex_encode d) = 2 * length d.
Proof.
  induction d as [|b d IH]; simpl; [reflexivity|]. rewrite IH. lia.
Qed.

(** The array after [n] turns of the loop of [bytesToHex]: [2 * n] digits,
    then the untouched rest. *)
Lemma hex_loop data (n : nat) (d : list byte) :
  2 * n <= length d ->
  foldl (fun d i =>
           <[i * 2 + 1:=hex_char (lo_nibble (nth i data x00))]>
             (<[i * 2:=hex_char (hi_nibble (nth i data x00))]> d))
        d (seq 0 n)
  = hex_encode (cells data n) ++ drop (2 * n) d.
Proof.
  induction n as [|n IH]; intros Hn.
  - simpl. rewrite drop_0. reflexivity.
  - rewrite seq_S, foldl_snoc, IH by lia. rewrite Nat.add_0_l.
    rewrite cells_S, hex_encode_app.
    replace (hex_encode [nth n data x00]) with (hex_pair (nth n data x00))
      by reflexivity.
    unfold hex_pair.
    destruct (drop_cons_lt d (2 * n)) as [x Hx]; [lia|].
    destruct (drop_cons_lt d (S (2 * n))) as [y Hy]; [lia|].
    rewrite Hx, Hy.
    assert (HL : length (hex_encode (cells data n)) = n * 2)
      by (rewrite length_hex_encode, length_cells; lia).
    rewrite <- HL at 2. rewrite insert_at_end.
    replace (n * 2 + 1) with (length (hex_encode (cells data n) ++
      [hex_char (hi_nibble (nth n data x00))]))
      by (rewrite length_app, HL; simpl; lia).
    set (E := hex_encode (cells data n)).
    set (a := hex_char (hi_nibble (nth n data x00))).
    replace (E ++ a :: y :: drop (S (S (2 * n))) d)
      with ((E ++ [a]) ++ y :: drop (S (S (2 * n))) d)
      by (rewrite <- app_assoc; reflexivity).
    rewrite insert_at_end, <- !app_assoc.
    replace (2 * S n) with (S (S (2 * n))) by lia. reflexivity.
Qed.

(** ** The digit table *)

(** Both nibbles of every byte select a lowercase digit of the table. *)
Lemma hex_digits_lower b :
  is_lower_hex (hex_char (hi_nibble b)) = true
  /\ is_lower_hex (hex_char (lo_nibble b)) = true.
Proof. destruct b; split; vm_compute; reflexivity. Qed.

(** The nibbles stay inside the sixteen digits of [hex_chars]. *)
Lemma nibble_range b :
  (0 <= hi_nibble b < 16)%Z /\ (0 <= lo_nibble b < 16)%Z
  /\ byte_val b = (16 * hi_nibble b + lo_nibble b)%Z.
Proof. destruct b; vm_compute; intuition congruence. Qed.

(** Reading the two digits back gives the byte. *)
Lemma unhex_hex_pair b :
  unhex_pair (hex_char (hi_nibble b)) (hex_char (lo_nibble b)) = Some b.
Proof. destruct b; vm_compute; reflexivity. Qed.

Lemma is_lower_hex_not_NUL c : is_lower_hex c = true -> c <> NUL.
Proof. intros H ->. vm_compute in H. discriminate. Qed.

Lemma hex_encode_lower d : forallb is_lower_hex (hex_encode d) = true.
Proof.
  induction d as [|b d IH]; simpl; [reflexivity|].
  destruct (hex_digits_lower b) as [-> ->]. exact IH.
Qed.

Lemma hex_encode_is_c_string d : is_c_string (hex_encode d) = true.
Proof.
  induction d as [|b d IH]; [reflexivity|].
  change (hex_encode (b :: d)) with (hex_pair b ++ hex_encode d).
  apply is_c_string_app. split; [|exact IH].
  destruct (hex_digits_lower b) as [Hh Hl].
  apply is_c_string_cons. split; [apply is_lower_hex_not_NUL, Hh|].
  apply is_c_string_cons. split; [apply is_lower_hex_not_NUL, Hl|reflexivity].
Qed.

Lemma hex_decode_encode d : hex_decode (hex_encode d) = map Some d.
Proof.
  induction d as [|b d IH]; [reflexivity|].
  change (hex_encode (b :: d))
    with (hex_char (hi_nibble b) :: hex_char (lo_nibble b) :: hex_encode d).
  simpl hex_decode. rewrite unhex_hex_pair, IH. reflexivity.
Qed.

(** Distinct digests have distinct encodings. *)
Lemma hex_encode_inj d1 d2 : hex_encode d1 = hex_encode d2 -> d1 = d2.
Proof.
  intros H. apply (f_equal hex_decode) in H. rewrite !hex_decode_encode in H.
  revert d2 H. induction d1 as [|a d1 IH]; intros [|b d2] H;
    try discriminate; [reflexivity|].
  simpl in H. injection H as Hab Hd. f_equal; [exact Hab | apply IH, Hd].
Qed.

(** ** [bytesToHex] and [strncpy] as one store *)

Lemma bytesToHex_step_store data b m i :
  bytesToHex_step data b m i
  = store b (<[i * 2 + 1:=hex_char (lo_nibble (nth i data x00))]>
               (<[i * 2:=hex_char (hi_nibble (nth i data x00))]> (load b m))) m.
Proof.
  unfold bytesToHex_step, poke. rewrite load_store_eq, store_store. reflexivity.
Qed.

(** After [bytesToHex (data, len, hex_out)] the array holds the [2 * len]
    digits of the [len] cells read, the terminator, and its old content
    beyond; nothing else has changed. *)
Lemma bytesToHex_store data len b m :
  2 * len + 1 <= length (load b m) ->
  bytesToHex data len b m
  = store b (hex_encode (cells data len) ++ NUL :: drop (2 * len + 1) (load b m)) m.
Proof.
  intros Hlen. unfold bytesToHex.
  rewrite (foldl_store b _
             (fun d i =>
                <[i * 2 + 1:=hex_char (lo_nibble (nth i data x00))]>
                  (<[i * 2:=hex_char (hi_nibble (nth i data x00))]> d))
             (bytesToHex_step_store data b)).
  unfold poke. rewrite load_store_eq, store_store. f_equal.
  rewrite hex_loop by lia.
  destruct (drop_cons_lt (load b m) (2 * len)) as [x Hx]; [lia|]. rewrite Hx.
  replace (len * 2) with (length (hex_encode (cells data len)))
    by (rewrite length_hex_encode, length_cells; lia).
  rewrite insert_at_end. replace (2 * len + 1) with (S (2 * len)) by lia.
  reflexivity.
Qed.

(** [bytesToHex] writes only through [hex_out], whatever the size of the
    array. *)
Lemma bytesToHex_frame data len b m :
  exists v, bytesToHex data len b m = store b v m.
Proof.
  unfold bytesToHex.
  rewrite (foldl_store b _
             (fun d i =>
                <[i * 2 + 1:=hex_char (lo_nibble (nth i data x00))]>
                  (<[i * 2:=hex_char (hi_nibble (nth i data x00))]> d))
             (bytesToHex_step_store data b)).
  unfold poke. rewrite load_store_eq, store_store. eexists. reflexivity.
Qed.

Lemma nth_nil_default {A} (d : A) i : nth i [] d = d.
Proof. destruct i; reflexivity. Qed.

(** The [n] cells [strncpy] writes: the text cut at [n], then NUL. *)
Lemma map_nth_pad (s : list byte) (n : nat) :
  map (fun i => nth i s NUL) (seq 0 n) = take n s ++ replicate (n - length s) NUL.
Proof.
  revert n. induction s as [|c s IH]; intros n.
  - simpl length. rewrite take_nil, Nat.sub_0_r, app_nil_l.
    rewrite (map_ext _ (fun _ => NUL)) by (intros i; apply nth_nil_default).
    generalize 0. induction n as [|n IHn]; intros k; simpl; [reflexivity|].
    f_equal. apply IHn.
  - destruct n as [|n]; [reflexivity|].
    simpl. f_equal. rewrite <- seq_shift, map_map. apply IH.
Qed.

Lemma strncpy_store dst src n m :
  n <= length (load dst m) ->
  strncpy dst src n m
  = store dst (take n (c_str src) ++ replicate (n - strlen src) NUL
               ++ drop n (load dst m)) m.
Proof.
  intros Hn. unfold strncpy, strlen.
  rewrite (foldl_store dst _ (fun d i => <[i:=nth i (c_str src) NUL]> d))
    by reflexivity.
  rewrite (fill_seq (fun i => nth i (c_str src) NUL)) by exact Hn.
  rewrite map_nth_pad, <- app_assoc. reflexivity.
Qed.

(** [strncpy (dst, src, n); dst[n] = '\0';] as the code does for both
    fields: the text cut at [n] cells, NUL up to and including cell [n]. *)
Lemma strncpy_terminated dst src n m :
  n < length (load dst m) ->
  poke dst n NUL (strncpy dst src n m)
  = store dst (take n (c_str src) ++ replicate (n - strlen src) NUL
               ++ NUL :: drop (S n) (load dst m)) m.
Proof.
  intros Hn. rewrite strncpy_store by lia. unfold poke.
  rewrite load_store_eq, store_store. f_equal.
  destruct (drop_cons_lt (load dst m) n Hn) as [x ->].
  rewrite app_assoc.
  replace n with (length (take n (c_str src) ++ replicate (n - strlen src) NUL)) at 1.
  - rewrite insert_at_end, <- app_assoc. reflexivity.
  - rewrite length_app, length_take, length_replicate. unfold strlen. lia.
Qed.

(** The text a field holds after the copy: the first [n] characters of the
    source text (all of it when it is shorter). *)
Lemma c_str_strncpy_terminated dst src n m :
  n < length (load dst m) ->
  c_str (load dst (poke dst n NUL (strncpy dst src n m))) = take n (c_str src).
Proof.
  intros Hn. rewrite strncpy_terminated, load_store_eq by exact Hn.
  apply c_str_padded, is_c_string_take, c_str_is_c_string.
Qed.

Section Properties.

Variable blake3 : list byte -> list byte.

Hypothesis blake3_out_len : forall msg, length (blake3 msg) = BLAKE3_OUT_LEN.

(** The 32 cells [bytesToHex] reads from [hash_bytes] are the digest. *)
Lemma cells_digest msg : cells (blake3 msg) 32 = blake3 msg.
Proof.
  rewrite <- (cells_all (blake3 msg)) at 2. rewrite blake3_out_len. reflexivity.
Qed.

(** [generateGenesisHash] stores the 64 digits of the digest of the three
    texts and the terminator into the output array, and nothing else. *)
Lemma generateGenesisHash_store h p s out m :
  65 <= length (load out m) ->
  generateGenesisHash blake3 h p s out m
  = store out (genesis_hash_of blake3 (c_str h) (c_str p) (c_str s)
               ++ NUL :: drop 65 (load out m)) m.
Proof.
  intros Hlen. unfold generateGenesisHash, blake3_hash, String_, genesis_hash_of.
  rewrite firstn_all, bytesToHex_store by (simpl; lia).
  rewrite cells_digest. reflexivity.
Qed.

Lemma length_genesis_hash_of h p s : length (genesis_hash_of blake3 h p s) = 64.
Proof.
  unfold genesis_hash_of. rewrite length_hex_encode, blake3_out_len. reflexivity.
Qed.

Lemma c_str_generateGenesisHash h p s out m :
  65 <= length (load out m) ->
  c_str (load out (generateGenesisHash blake3 h p s out m))
  = genesis_hash_of blake3 (c_str h) (c_str p) (c_str s).
Proof.
  intros Hlen. rewrite generateGenesisHash_store, load_store_eq by exact Hlen.
  apply c_str_app_NUL, hex_encode_is_c_string.
Qed.

(** The memory after [createIdentityBlock]: every cell of the three
    arrays is written, so the block does not depend on what it held. *)
Lemma createIdentityBlock_memory h p s t m :
  sized m ->
  createIdentityBlock blake3 h p s t m
  = mkMemory
      (mkIdentityBlock
         (take 17 (c_str h) ++ replicate (17 - strlen h) NUL ++ [NUL])
         (take 64 (c_str p) ++ replicate (64 - strlen p) NUL ++ [NUL])
         (genesis_hash_of blake3 (c_str h) (c_str p) (c_str s) ++ [NUL])
         t)
      (expected_hash m).
Proof.
  destruct m as [[hw pk gh pt] eh]. intros (Hh & Hp & Hg & He). simpl in *.
  unfold createIdentityBlock.
  rewrite strncpy_terminated by (simpl; lia).
  rewrite strncpy_terminated by (simpl; lia).
  rewrite generateGenesisHash_store by (simpl; lia).
  cbn [store load block hardware_id public_key genesis_hash platform_type
       expected_hash set_platform_type].
  rewrite (drop_ge hw), (drop_ge pk), (drop_ge gh) by lia. reflexivity.
Qed.

Lemma sized_createIdentityBlock h p s t m :
  sized m -> sized (createIdentityBlock blake3 h p s t m).
Proof.
  intros Hm. rewrite createIdentityBlock_memory by exact Hm.
  destruct Hm as (_ & _ & _ & He). unfold sized.
  cbn [block hardware_id public_key genesis_hash expected_hash].
  rewrite !length_app, !length_take, !length_replicate, length_genesis_hash_of.
  unfold strlen. cbn [length]. lia.
Qed.

(** What [verifyIdentityBlock] answers: whether the text in the stored
    [genesis_hash] is the genesis hash of the stored texts and the salt. *)
Lemma verifyIdentityBlock_result salt m :
  length (expected_hash m) = 65 ->
  fst (verifyIdentityBlock blake3 salt m) = true
  <-> c_str (genesis_hash (block m))
      = genesis_hash_of blake3 (c_str (hardware_id (block m)))
                        (c_str (public_key (block m))) (c_str salt).
Proof.
  intros He. unfold verifyIdentityBlock. cbn [fst].
  rewrite Z.eqb_eq, strcmp_zero_iff.
  rewrite c_str_generateGenesisHash by (simpl; lia).
  rewrite generateGenesisHash_store by (simpl; lia).
  reflexivity.
Qed.

(** The texts the block holds after [createIdentityBlock]: the two fields
    are cut to the field widths, the hash is the one of the texts as they
    were supplied. *)
Lemma createIdentityBlock_texts h p s t m :
  sized m ->
  c_str (hardware_id (block (createIdentityBlock blake3 h p s t m)))
    = take 17 (c_str h)
  /\ c_str (public_key (block (createIdentityBlock blake3 h p s t m)))
     = take 64 (c_str p)
  /\ c_str (genesis_hash (block (createIdentityBlock blake3 h p s t m)))
     = genesis_hash_of blake3 (c_str h) (c_str p) (c_str s)
  /\ platform_type (block (createIdentityBlock blake3 h p s t m)) = t.
Proof.
  intros Hm. rewrite createIdentityBlock_memory by exact Hm.
  cbn [block hardware_id public_key genesis_hash platform_type].
  rewrite c_str_app_NUL by apply hex_encode_is_c_string.
  rewrite !c_str_padded by apply is_c_string_take, c_str_is_c_string.
  split; [reflexivity|]. split; [reflexivity|]. split; reflexivity.
Qed.

(** [generateGenesisHash] writes only through [genesis_hash_out], whatever
    the size of the array. *)
Lemma generateGenesisHash_frame h p s out m :
  exists v, generateGenesisHash blake3 h p s out m = store out v m.
Proof. unfold generateGenesisHash. apply bytesToHex_frame. Qed.

(** ** The protocol properties *)

(** C1. For all texts [h], [p], [s], [generateGenesisHash] leaves in the
    output array the lowercase hex encoding of the 32-byte digest of the
    concatenation [h ++ p ++ s], in that order: it does what [bytesToHex]
    (the [hashToHex] of the protocol) does on [blake3 (h ++ p ++ s)], and
    the text it leaves is [hex_encode] of that digest, 64 lowercase
    digits. *)
Theorem generateGenesisHash_correct h p s out m :
  is_c_string h = true -> is_c_string p = true -> is_c_string s = true ->
  65 <= length (load out m) ->
  generateGenesisHash blake3 h p s out m
    = bytesToHex (blake3 (h ++ p ++ s)) 32 out m
  /\ c_str (load out (generateGenesisHash blake3 h p s out m))
     = hex_encode (blake3 (h ++ p ++ s))
  /\ length (c_str (load out (generateGenesisHash blake3 h p s out m))) = 64
  /\ forallb is_lower_hex
       (c_str (load out (generateGenesisHash blake3 h p s out m))) = true.
Proof.
  intros Hh Hp Hs Hlen.
  rewrite c_str_generateGenesisHash by exact Hlen.
  rewrite !c_str_id by assumption.
  split; [|split; [reflexivity|split]].
  - unfold generateGenesisHash, blake3_hash, String_.
    rewrite !c_str_id by assumption. rewrite firstn_all. reflexivity.
  - apply length_genesis_hash_of.
  - apply hex_encode_lower.
Qed.

(** C2. Verification soundness: for texts [h] of at most 17 characters and
    [p] of at most 64, any salt and platform tag, the block that
    [createIdentityBlock] builds passes [verifyIdentityBlock] with the same
    salt. *)
Theorem verify_create_sound h p s t m :
  sized m ->
  is_c_string h = true -> is_c_string p = true -> is_c_string s = true ->
  length h <= 17 -> length p <= 64 ->
  fst (verifyIdentityBlock blake3 s (createIdentityBlock blake3 h p s t m)) = true.
Proof.
  intros Hm Hh Hp Hs Lh Lp.
  apply verifyIdentityBlock_result.
  - apply sized_createIdentityBlock, Hm.
  - rewrite createIdentityBlock_memory by exact Hm.
    cbn [block hardware_id public_key genesis_hash].
    rewrite c_str_app_NUL by apply hex_encode_is_c_string.
    rewrite !c_str_padded by apply is_c_string_take, c_str_is_c_string.
    rewrite !c_str_id by assumption.
    rewrite !take_ge by lia. reflexivity.
Qed.

(** C3 (the code departs from the claim). For the oversized hardware id
    ["AA:BB:CC:DD:EE:FF:00"] the block stores the first 17 characters, but
    the stored hash is the one of the 20 characters supplied. Whenever the
    hash separates the two preimages, the stored [genesis_hash] is not the
    hash of the stored fields and the salt, and [verifyIdentityBlock]
    rejects the block that [createIdentityBlock] has just built. *)
Theorem createIdentityBlock_oversized_breaks_invariant t m :
  sized m ->
  blake3 (oversized_hardware_id ++ sample_public_key ++ sample_salt)
    <> blake3 (sample_hardware_id ++ sample_public_key ++ sample_salt) ->
  c_str (hardware_id (block (createIdentityBlock blake3 oversized_hardware_id
                               sample_public_key sample_salt t m)))
    = sample_hardware_id
  /\ c_str (public_key (block (createIdentityBlock blake3 oversized_hardware_id
                                 sample_public_key sample_salt t m)))
     = sample_public_key
  /\ c_str (genesis_hash (block (createIdentityBlock blake3 oversized_hardware_id
                                   sample_public_key sample_salt t m)))
     = genesis_hash_of blake3 oversized_hardware_id sample_public_key sample_salt
  /\ c_str (genesis_hash (block (createIdentityBlock blake3 oversized_hardware_id
                                   sample_public_key sample_salt t m)))
     <> genesis_hash_of blake3 sample_hardware_id sample_public_key sample_salt
  /\ fst (verifyIdentityBlock blake3 sample_salt
            (createIdentityBlock blake3 oversized_hardware_id
               sample_public_key sample_salt t m)) = false.
Proof.
  intros Hm Hne.
  destruct (createIdentityBlock_texts oversized_hardware_id sample_public_key
              sample_salt t m Hm) as (E1 & E2 & E3 & _).
  change (take 17 (c_str oversized_hardware_id)) with sample_hardware_id in E1.
  change (take 64 (c_str sample_public_key)) with sample_public_key in E2.
  change (c_str oversized_hardware_id) with oversized_hardware_id in E3.
  change (c_str sample_public_key) with sample_public_key in E3.
  change (c_str sample_salt) with sample_salt in E3.
  assert (Hdiff : genesis_hash_of blake3 oversized_hardware_id sample_public_key
                    sample_salt
                  <> genesis_hash_of blake3 sample_hardware_id sample_public_key
                       sample_salt).
  { unfold genesis_hash_of. intros H. apply Hne, hex_encode_inj, H. }
  split; [exact E1|]. split; [exact E2|]. split; [exact E3|]. split.
  - rewrite E3. exact Hdiff.
  - destruct (fst (verifyIdentityBlock blake3 sample_salt _)) eqn:V;
      [|reflexivity].
    exfalso. apply verifyIdentityBlock_result in V.
    + rewrite E1, E2, E3 in V.
      change (c_str sample_salt) with sample_salt in V. exact (Hdiff V).
    + apply sized_createIdentityBlock, Hm.
Qed.

(** C4. [createIdentityBlock] cuts oversized inputs to the field widths
    and reports nothing: for all texts, the stored [hardware_id] is the
    first 17 characters of the one supplied (all of it when shorter), the
    stored [public_key] the first 64; the call always returns a block of
    the declared sizes with the platform tag set. *)
Theorem createIdentityBlock_truncates h p s t m :
  sized m ->
  is_c_string h = true -> is_c_string p = true ->
  c_str (hardware_id (block (createIdentityBlock blake3 h p s t m))) = take 17 h
  /\ c_str (public_key (block (createIdentityBlock blake3 h p s t m))) = take 64 p
  /\ platform_type (block (createIdentityBlock blake3 h p s t m)) = t
  /\ sized (createIdentityBlock blake3 h p s t m).
Proof.
  intros Hm Hh Hp.
  destruct (createIdentityBlock_texts h p s t m Hm) as (E1 & E2 & _ & E4).
  rewrite (c_str_id h Hh) in E1. rewrite (c_str_id p Hp) in E2.
  split; [exact E1|]. split; [exact E2|]. split; [exact E4|].
  apply sized_createIdentityBlock, Hm.
Qed.

(** C5. For every block whose [hardware_id] and [public_key] arrays hold
    a terminator, and every salt, [verifyIdentityBlock] returns [true]
    exactly when the text of the stored [genesis_hash] equals, character
    for character, the text [generateGenesisHash] recomputes from the
    stored [hardware_id] and [public_key] and the salt; on any mismatch it
    returns [false]. The result is always one of the two booleans. The
    recomputed text is the genesis hash of the stored texts. *)
Theorem verifyIdentityBlock_exact_match salt m :
  length (expected_hash m) = 65 ->
  has_terminator (hardware_id (block m)) = true ->
  has_terminator (public_key (block m)) = true ->
  (fst (verifyIdentityBlock blake3 salt m) = true
   <-> c_str (genesis_hash (block m))
       = c_str (load local_expected_hash
                  (generateGenesisHash blake3 (hardware_id (block m))
                     (public_key (block m)) salt local_expected_hash m)))
  /\ (fst (verifyIdentityBlock blake3 salt m) = false
      <-> c_str (genesis_hash (block m))
          <> c_str (load local_expected_hash
                      (generateGenesisHash blake3 (hardware_id (block m))
                         (public_key (block m)) salt local_expected_hash m)))
  /\ c_str (load local_expected_hash
              (generateGenesisHash blake3 (hardware_id (block m))
                 (public_key (block m)) salt local_expected_hash m))
     = genesis_hash_of blake3 (c_str (hardware_id (block m)))
                       (c_str (public_key (block m))) (c_str salt).
Proof.
  intros He _ _.
  assert (Hlen : 65 <= length (load local_expected_hash m)) by (simpl; lia).
  rewrite (c_str_generateGenesisHash _ _ _ _ _ Hlen).
  pose proof (verifyIdentityBlock_result salt m He) as Hv.
  split; [exact Hv|]. split; [|reflexivity].
  rewrite <- Hv. destruct (fst (verifyIdentityBlock blake3 salt m));
    split; congruence.
Qed.

(** C7 (amended). Swapping [hardware_id] and [public_key] changes the
    genesis hash exactly when the digests of the two preimages differ.
    When [h ++ p = p ++ h] (the same text twice, or two powers of one
    word) the swapped call writes the same hash. *)
Theorem swapped_order_hash h p s out m :
  is_c_string h = true -> is_c_string p = true -> is_c_string s = true ->
  65 <= length (load out m) ->
  (c_str (load out (generateGenesisHash blake3 h p s out m))
   <> c_str (load out (generateGenesisHash blake3 p h s out m))
   <-> blake3 (h ++ p ++ s) <> blake3 (p ++ h ++ s))
  /\ (h ++ p = p ++ h ->
      generateGenesisHash blake3 h p s out m
      = generateGenesisHash blake3 p h s out m).
Proof.
  intros Hh Hp Hs Hlen. split.
  - rewrite !c_str_generateGenesisHash by exact Hlen.
    rewrite !c_str_id by assumption. unfold genesis_hash_of. split.
    + intros Hne Heq. apply Hne. rewrite Heq. reflexivity.
    + intros Hne Heq. apply Hne, hex_encode_inj, Heq.
  - intros Hswap. unfold generateGenesisHash, String_.
    rewrite !c_str_id by assumption.
    rewrite !app_assoc, Hswap. reflexivity.
Qed.

(** C8. Determinism: for a fixed triple, two calls of
    [generateGenesisHash] leave the same text, of 64 characters, whatever
    the output arrays and the memories they run in held before. *)
Theorem generateGenesisHash_deterministic h p s out1 out2 m1 m2 :
  65 <= length (load out1 m1) -> 65 <= length (load out2 m2) ->
  c_str (load out1 (generateGenesisHash blake3 h p s out1 m1))
  = c_str (load out2 (generateGenesisHash blake3 h p s out2 m2))
  /\ length (c_str (load out1 (generateGenesisHash blake3 h p s out1 m1))) = 64.
Proof.
  intros H1 H2. rewrite !c_str_generateGenesisHash by assumption.
  split; [reflexivity | apply length_genesis_hash_of].
Qed.

End Properties.

(** C9. [verifyIdentityBlock] leaves the block as it found it, whatever it
    answers: the four fields are the same after the call, for every hash,
    salt and memory. *)
Theorem verifyIdentityBlock_preserves_block blake3 salt m :
  block (snd (verifyIdentityBlock blake3 salt m)) = block m
  /\ hardware_id (block (snd (verifyIdentityBlock blake3 salt m)))
     = hardware_id (block m)
  /\ public_key (block (snd (verifyIdentityBlock blake3 salt m)))
     = public_key (block m)
  /\ genesis_hash (block (snd (verifyIdentityBlock blake3 salt m)))
     = genesis_hash (block m)
  /\ platform_type (block (snd (verifyIdentityBlock blake3 salt m)))
     = platform_type (block m).
Proof.
  assert (E : block (snd (verifyIdentityBlock blake3 salt m)) = block m).
  { unfold verifyIdentityBlock. cbn [snd].
    destruct (generateGenesisHash_frame blake3 (load block_hardware_id m)
                (load block_public_key m) salt local_expected_hash m) as [v ->].
    apply block_store_local. }
  rewrite E. split; [reflexivity|]. split; [reflexivity|].
  split; [reflexivity|]. split; reflexivity.
Qed.

(** ** The hex encoder *)

Lemma hex_encode_lookup data i b :
  data !! i = Some b ->
  hex_encode data !! (2 * i) = Some (hex_char (hi_nibble b))
  /\ hex_encode data !! (2 * i + 1) = Some (hex_char (lo_nibble b)).
Proof.
  revert i. induction data as [|a data IH]; intros i Hi; [discriminate|].
  destruct i as [|i].
  - injection Hi as ->. split; reflexivity.
  - replace (2 * S i) with (S (S (2 * i))) by lia.
    replace (S (S (2 * i)) + 1) with (S (S (2 * i + 1))) by lia.
    apply (IH i Hi).
Qed.

(** The digit written for a nibble is the entry of the literal table at
    the nibble, the high nibble being the quotient by 16 and the low one
    the remainder. *)
Lemma hex_char_table b :
  lit "0123456789abcdef" !! Z.to_nat (byte_val b / 16)
    = Some (hex_char (hi_nibble b))
  /\ lit "0123456789abcdef" !! Z.to_nat (byte_val b mod 16)
     = Some (hex_char (lo_nibble b)).
Proof. destruct b; split; vm_compute; reflexivity. Qed.

(** C6. For every byte array [data] and an output array of at least
    [2 * len + 1] cells, [bytesToHex] leaves a text of exactly [2 * len]
    characters: cells [2 * i] and [2 * i + 1] hold the entries of the table
    ["0123456789abcdef"] for the high and the low nibble of byte [i], cell
    [2 * len] holds the terminator, every character is a lowercase
    hexadecimal digit (so there is no separator and no prefix), and a
    32-byte digest gives 64 characters. *)
Theorem bytesToHex_correct data out m :
  2 * length data + 1 <= length (load out m) ->
  c_str (load out (bytesToHex data (length data) out m)) = hex_encode data
  /\ length (c_str (load out (bytesToHex data (length data) out m)))
     = 2 * length data
  /\ (forall i b, data !! i = Some b ->
      exists c1 c2,
        load out (bytesToHex data (length data) out m) !! (2 * i) = Some c1
        /\ load out (bytesToHex data (length data) out m) !! (2 * i + 1) = Some c2
        /\ lit "0123456789abcdef" !! Z.to_nat (byte_val b / 16) = Some c1
        /\ lit "0123456789abcdef" !! Z.to_nat (byte_val b mod 16) = Some c2)
  /\ load out (bytesToHex data (length data) out m) !! (2 * length data)
     = Some NUL
  /\ forallb is_lower_hex
       (c_str (load out (bytesToHex data (length data) out m))) = true
  /\ (length data = 32 ->
      length (c_str (load out (bytesToHex data (length data) out m))) = 64).
Proof.
  intros Hlen. rewrite bytesToHex_store, load_store_eq, cells_all by exact Hlen.
  rewrite c_str_app_NUL by apply hex_encode_is_c_string.
  rewrite length_hex_encode.
  split; [reflexivity|]. split; [reflexivity|]. split; [|split; [|split]].
  - intros i b Hi. destruct (hex_encode_lookup data i b Hi) as [H1 H2].
    destruct (hex_char_table b) as [T1 T2].
    exists (hex_char (hi_nibble b)), (hex_char (lo_nibble b)).
    split; [apply lookup_app_l_Some, H1|].
    split; [apply lookup_app_l_Some, H2|].
    split; [exact T1 | exact T2].
  - apply list_lookup_middle. symmetry. apply length_hex_encode.
  - apply hex_encode_lower.
  - intros ->. reflexivity.
Qed.

(** ** Preimages that coincide *)

(** C7 (as stated, refuted). The texts ["AB"] and ["ABAB"] differ, yet with
    them as [hardware_id] and [public_key] the swapped call writes the same
    memory, for every hash. *)
Lemma swapped_order_same_hash :
  lit "AB" <> lit "ABAB"
  /\ is_c_string (lit "AB") = true
  /\ is_c_string (lit "ABAB") = true
  /\ forall blake3 out m,
       generateGenesisHash blake3 (lit "AB") (lit "ABAB") sample_salt out m
       = generateGenesisHash blake3 (lit "ABAB") (lit "AB") sample_salt out m.
Proof.
  split; [discriminate|]. split; [reflexivity|]. split; [reflexivity|].
  intros blake3 out m. unfold generateGenesisHash. reflexivity.
Qed.

(** C10. The preimage does not determine the triple: ["AB"], ["C"] and
    ["A"], ["BC"] with the same salt are distinct triples of texts with the
    same concatenation, and [generateGenesisHash] writes the same hash for
    both, for every hash function. *)
Theorem preimage_not_injective :
  exists h p s h' p' s' : list byte,
    (h, p, s) <> (h', p', s')
    /\ is_c_string h = true /\ is_c_string p = true /\ is_c_string s = true
    /\ is_c_string h' = true /\ is_c_string p' = true /\ is_c_string s' = true
    /\ h ++ p ++ s = h' ++ p' ++ s'
    /\ forall blake3 out m,
         generateGenesisHash blake3 h p s out m
         = generateGenesisHash blake3 h' p' s' out m.
Proof.
  exists (lit "AB"), (lit "C"), sample_salt, (lit "A"), (lit "BC"), sample_salt.
  split; [discriminate|].
  do 6 (split; [reflexivity|]). split; [reflexivity|].
  intros blake3 out m. unfold generateGenesisHash. reflexivity.
Qed.

(** ** The properties on the reference triple *)

Lemma prefix_digest_len msg : length (prefix_digest msg) = BLAKE3_OUT_LEN.
Proof.
  unfold prefix_digest, BLAKE3_OUT_LEN.
  rewrite length_take, length_app, length_replicate. lia.
Qed.

Lemma sized_stale_memory : sized stale_memory.
Proof. unfold sized. vm_compute. tauto. Qed.

Ltac by_evaluation := first [reflexivity | vm_compute; lia | vm_compute; tauto].

Lemma generateGenesisHash_correct_witness :
  is_c_string sample_hardware_id = true
  /\ is_c_string sample_public_key = true
  /\ is_c_string sample_salt = true
  /\ 65 <= length (load block_genesis_hash stale_memory)
  /\ c_str (load block_genesis_hash
              (generateGenesisHash prefix_digest sample_hardware_id
                 sample_public_key sample_salt block_genesis_hash stale_memory))
     = hex_encode (prefix_digest
                     (sample_hardware_id ++ sample_public_key ++ sample_salt)).
Proof.
  do 3 (split; [reflexivity|]). split; [by_evaluation|].
  apply (generateGenesisHash_correct prefix_digest prefix_digest_len
           sample_hardware_id sample_public_key sample_salt
           block_genesis_hash stale_memory); by_evaluation.
Defined.

Lemma verify_create_sound_witness :
  sized stale_memory
  /\ length sample_hardware_id <= 17
  /\ length sample_public_key <= 64
  /\ fst (verifyIdentityBlock prefix_digest sample_salt
            (createIdentityBlock prefix_digest sample_hardware_id
               sample_public_key sample_salt SBC stale_memory)) = true.
Proof.
  split; [exact sized_stale_memory|]. do 2 (split; [by_evaluation|]).
  apply (verify_create_sound prefix_digest prefix_digest_len
           sample_hardware_id sample_public_key sample_salt SBC stale_memory);
    first [exact sized_stale_memory | by_evaluation].
Defined.

Lemma createIdentityBlock_oversized_witness :
  sized stale_memory
  /\ prefix_digest (oversized_hardware_id ++ sample_public_key ++ sample_salt)
     <> prefix_digest (sample_hardware_id ++ sample_public_key ++ sample_salt)
  /\ fst (verifyIdentityBlock prefix_digest sample_salt
            (createIdentityBlock prefix_digest oversized_hardware_id
               sample_public_key sample_salt MCU stale_memory)) = false.
Proof.
  split; [exact sized_stale_memory|].
  split; [intros H; vm_compute in H; discriminate H|].
  apply (createIdentityBlock_oversized_breaks_invariant prefix_digest
           prefix_digest_len MCU stale_memory sized_stale_memory).
  intros H. vm_compute in H. discriminate H.
Defined.

Lemma createIdentityBlock_truncates_witness :
  sized stale_memory
  /\ is_c_string oversized_hardware_id = true
  /\ is_c_string sample_public_key = true
  /\ c_str (hardware_id (block (createIdentityBlock prefix_digest
                                  oversized_hardware_id sample_public_key
                                  sample_salt MCU stale_memory)))
     = take 17 oversized_hardware_id.
Proof.
  split; [exact sized_stale_memory|]. do 2 (split; [reflexivity|]).
  apply (createIdentityBlock_truncates prefix_digest prefix_digest_len
           oversized_hardware_id sample_public_key sample_salt MCU stale_memory
           sized_stale_memory); reflexivity.
Defined.

Lemma verifyIdentityBlock_exact_match_witness :
  length (expected_hash reference_memory) = 65
  /\ has_terminator (hardware_id (block reference_memory)) = true
  /\ has_terminator (public_key (block reference_memory)) = true
  /\ (fst (verifyIdentityBlock prefix_digest sample_salt reference_memory) = true
      <-> c_str (genesis_hash (block reference_memory))
          = c_str (load local_expected_hash
                     (generateGenesisHash prefix_digest
                        (hardware_id (block reference_memory))
                        (public_key (block reference_memory)) sample_salt
                        local_expected_hash reference_memory))).
Proof.
  do 3 (split; [reflexivity|]).
  exact (proj1 (verifyIdentityBlock_exact_match prefix_digest prefix_digest_len
                  sample_salt reference_memory eq_refl eq_refl eq_refl)).
Defined.

Lemma bytesToHex_correct_witness :
  2 * length [x00; xab; xff; x10] + 1 <= length (load local_expected_hash stale_memory)
  /\ c_str (load local_expected_hash
              (bytesToHex [x00; xab; xff; x10] 4 local_expected_hash stale_memory))
     = hex_encode [x00; xab; xff; x10].
Proof.
  split; [by_evaluation|].
  apply (bytesToHex_correct [x00; xab; xff; x10] local_expected_hash stale_memory).
  by_evaluation.
Defined.

Lemma swapped_order_hash_witness :
  is_c_string sample_hardware_id = true
  /\ is_c_string sample_public_key = true
  /\ is_c_string sample_salt = true
  /\ 65 <= length (load block_genesis_hash stale_memory)
  /\ (c_str (load block_genesis_hash
               (generateGenesisHash prefix_digest sample_hardware_id
                  sample_public_key sample_salt block_genesis_hash stale_memory))
      <> c_str (load block_genesis_hash
                  (generateGenesisHash prefix_digest sample_public_key
                     sample_hardware_id sample_salt block_genesis_hash
                     stale_memory))
      <-> prefix_digest (sample_hardware_id ++ sample_public_key ++ sample_salt)
          <> prefix_digest (sample_public_key ++ sample_hardware_id ++ sample_salt)).
Proof.
  do 3 (split; [reflexivity|]). split; [by_evaluation|].
  apply (swapped_order_hash prefix_digest prefix_digest_len
           sample_hardware_id sample_public_key sample_salt
           block_genesis_hash stale_memory); by_evaluation.
Defined.

Lemma generateGenesisHash_deterministic_witness :
  65 <= length (load block_genesis_hash stale_memory)
  /\ 65 <= length (load local_expected_hash
                     (createIdentityBlock prefix_digest sample_hardware_id
                        sample_public_key sample_salt MCU stale_memory))
  /\ c_str (load block_genesis_hash
              (generateGenesisHash prefix_digest sample_hardware_id
                 sample_public_key sample_salt block_genesis_hash stale_memory))
     = c_str (load local_expected_hash
                (generateGenesisHash prefix_digest sample_hardware_id
                   sample_public_key sample_salt local_expected_hash
                   (createIdentityBlock prefix_digest sample_hardware_id
                      sample_public_key sample_salt MCU stale_memory))).
Proof.
  do 2 (split; [by_evaluation|]).
  apply (generateGenesisHash_deterministic prefix_digest prefix_digest_len
           sample_hardware_id sample_public_key sample_salt
           block_genesis_hash local_expected_hash stale_memory
           (createIdentityBlock prefix_digest sample_hardware_id
              sample_public_key sample_salt MCU stale_memory)); by_evaluation.
Defined.

(** ** Creation and verification together *)

Section Composition.

Variable blake3 : list byte -> list byte.

Hypothesis blake3_out_len : forall msg, length (blake3 msg) = BLAKE3_OUT_LEN.

(** Verifying a freshly created block compares the digest of the texts
    supplied to [createIdentityBlock] with the digest of the texts the
    block kept and the salt given to [verifyIdentityBlock]. *)
Lemma verify_after_create h p s1 s2 t m :
  sized m ->
  fst (verifyIdentityBlock blake3 s2 (createIdentityBlock blake3 h p s1 t m)) = true
  <-> blake3 (c_str h ++ c_str p ++ c_str s1)
      = blake3 (take 17 (c_str h) ++ take 64 (c_str p) ++ c_str s2).
Proof.
  intros Hm.
  rewrite (verifyIdentityBlock_result blake3 blake3_out_len)
    by apply (sized_createIdentityBlock blake3 blake3_out_len), Hm.
  destruct (createIdentityBlock_texts blake3 blake3_out_len h p s1 t m Hm)
    as (E1 & E2 & E3 & _).
  rewrite E1, E2, E3.
  unfold genesis_hash_of. split; [apply hex_encode_inj | congruence].
Qed.

(** X1. A block created from texts [h], [p] with salt [s1] passes
    verification with salt [s2] exactly when the hash gives one digest to
    [h ++ p ++ s1] and to the stored fields with [s2], that is to
    [take 17 h ++ take 64 p ++ s2]. For inputs within the field widths this
    is the digest of the same fields with the other salt: a wrong salt is
    accepted only on a collision of the hash. *)
Theorem verify_create_iff h p s1 s2 t m :
  sized m ->
  is_c_string h = true -> is_c_string p = true ->
  is_c_string s1 = true -> is_c_string s2 = true ->
  (fst (verifyIdentityBlock blake3 s2 (createIdentityBlock blake3 h p s1 t m)) = true
   <-> blake3 (h ++ p ++ s1) = blake3 (take 17 h ++ take 64 p ++ s2))
  /\ (length h <= 17 -> length p <= 64 ->
      blake3 (h ++ p ++ s1) <> blake3 (h ++ p ++ s2) ->
      fst (verifyIdentityBlock blake3 s2 (createIdentityBlock blake3 h p s1 t m))
      = false).
Proof.
  intros Hm Hh Hp Hs1 Hs2.
  pose proof (verify_after_create h p s1 s2 t m Hm) as V.
  rewrite (c_str_id h Hh), (c_str_id p Hp), (c_str_id s1 Hs1),
    (c_str_id s2 Hs2) in V.
  split; [exact V|].
  intros Lh Lp Hne. rewrite !take_ge in V by lia.
  destruct (fst (verifyIdentityBlock blake3 s2 _)); [|reflexivity].
  exfalso. apply Hne, V. reflexivity.
Qed.

(** X2. [createIdentityBlock] writes every cell of the three arrays: the
    block it leaves is the same whatever the block held before, each array
    ends in a terminator in its last cell, and the local array of the
    verifier is not touched. *)
Theorem createIdentityBlock_overwrites h p s t m1 m2 :
  sized m1 -> sized m2 ->
  block (createIdentityBlock blake3 h p s t m1)
    = block (createIdentityBlock blake3 h p s t m2)
  /\ expected_hash (createIdentityBlock blake3 h p s t m1) = expected_hash m1
  /\ hardware_id (block (createIdentityBlock blake3 h p s t m1)) !! 17 = Some NUL
  /\ public_key (block (createIdentityBlock blake3 h p s t m1)) !! 64 = Some NUL
  /\ genesis_hash (block (createIdentityBlock blake3 h p s t m1)) !! 64 = Some NUL.
Proof.
  intros H1 H2.
  rewrite !(createIdentityBlock_memory blake3 blake3_out_len) by assumption.
  cbn [block expected_hash hardware_id public_key genesis_hash].
  split; [reflexivity|]. split; [reflexivity|].
  split; [|split].
  - rewrite app_assoc. apply list_lookup_middle.
    rewrite length_app, length_take, length_replicate. unfold strlen. lia.
  - rewrite app_assoc. apply list_lookup_middle.
    rewrite length_app, length_take, length_replicate. unfold strlen. lia.
  - apply list_lookup_middle.
    rewrite (length_genesis_hash_of blake3 blake3_out_len). reflexivity.
Qed.

(** X3. Hardware ids that agree on their first 17 characters, and public
    keys that agree on their first 64, are stored as the same two arrays:
    the stored fields do not tell such inputs apart. The stored hashes are
    nevertheless equal only if the hash gives both full preimages one
    digest. *)
Theorem createIdentityBlock_prefix_collision h h' p p' s t m :
  sized m ->
  is_c_string h = true -> is_c_string h' = true ->
  is_c_string p = true -> is_c_string p' = true -> is_c_string s = true ->
  take 17 h = take 17 h' -> take 64 p = take 64 p' ->
  hardware_id (block (createIdentityBlock blake3 h p s t m))
    = hardware_id (block (createIdentityBlock blake3 h' p' s t m))
  /\ public_key (block (createIdentityBlock blake3 h p s t m))
     = public_key (block (createIdentityBlock blake3 h' p' s t m))
  /\ (genesis_hash (block (createIdentityBlock blake3 h p s t m))
      = genesis_hash (block (createIdentityBlock blake3 h' p' s t m))
      <-> blake3 (h ++ p ++ s) = blake3 (h' ++ p' ++ s)).
Proof.
  intros Hm Hh Hh' Hp Hp' Hs Th Tp.
  rewrite !(createIdentityBlock_memory blake3 blake3_out_len) by assumption.
  cbn [block hardware_id public_key genesis_hash]. unfold strlen.
  rewrite (c_str_id h Hh), (c_str_id h' Hh'), (c_str_id p Hp),
    (c_str_id p' Hp'), (c_str_id s Hs).
  assert (Lh : 17 - length h = 17 - length h').
  { apply (f_equal length) in Th. rewrite !length_take in Th. lia. }
  assert (Lp : 64 - length p = 64 - length p').
  { apply (f_equal length) in Tp. rewrite !length_take in Tp. lia. }
  rewrite Th, Tp, Lh, Lp.
  split; [reflexivity|]. split; [reflexivity|].
  unfold genesis_hash_of. split.
  - intros H. apply app_inv_tail in H. apply hex_encode_inj, H.
  - intros H. rewrite H. reflexivity.
Qed.

(** X4. A block that [verifyIdentityBlock] accepts holds a hash text of
    exactly 64 lowercase hexadecimal digits: a stored hash of another
    length, or with an uppercase digit or any other character, is always
    rejected. *)
Theorem verified_hash_is_lower_hex salt m :
  length (expected_hash m) = 65 ->
  fst (verifyIdentityBlock blake3 salt m) = true ->
  length (c_str (genesis_hash (block m))) = 64
  /\ forallb is_lower_hex (c_str (genesis_hash (block m))) = true.
Proof.
  intros He Hv.
  apply (verifyIdentityBlock_result blake3 blake3_out_len salt m He) in Hv.
  rewrite Hv. split.
  - apply (length_genesis_hash_of blake3 blake3_out_len).
  - apply hex_encode_lower.
Qed.

(** X5. Tampering with the stored hash is detected: if a block whose
    [hardware_id] and [public_key] arrays hold a terminator verifies and
    the text of its [genesis_hash] is replaced by any other text,
    verification with the same salt fails. *)
Theorem verify_detects_hash_tampering salt m forged :
  length (expected_hash m) = 65 ->
  has_terminator (hardware_id (block m)) = true ->
  has_terminator (public_key (block m)) = true ->
  fst (verifyIdentityBlock blake3 salt m) = true ->
  c_str forged <> c_str (genesis_hash (block m)) ->
  fst (verifyIdentityBlock blake3 salt (store block_genesis_hash forged m)) = false.
Proof.
  intros He _ _ Hv Hne.
  apply (verifyIdentityBlock_result blake3 blake3_out_len salt m He) in Hv.
  destruct (fst (verifyIdentityBlock blake3 salt (store _ _ _))) eqn:V;
    [|reflexivity].
  exfalso.
  apply (verifyIdentityBlock_result blake3 blake3_out_len) in V; [|exact He].
  cbn [store block hardware_id public_key genesis_hash] in V.
  apply Hne. rewrite V, Hv. reflexivity.
Qed.

(** X6. The answer of [verifyIdentityBlock] depends only on the texts of
    the three stored character fields and of the salt: the platform tag,
    the cells after the terminators and the previous content of the local
    array play no part. In particular the platform tag of a block can be
    changed without verification noticing. *)
Theorem verify_depends_on_texts_only salt1 salt2 m1 m2 :
  length (expected_hash m1) = 65 -> length (expected_hash m2) = 65 ->
  c_str (hardware_id (block m1)) = c_str (hardware_id (block m2)) ->
  c_str (public_key (block m1)) = c_str (public_key (block m2)) ->
  c_str (genesis_hash (block m1)) = c_str (genesis_hash (block m2)) ->
  c_str salt1 = c_str salt2 ->
  fst (verifyIdentityBlock blake3 salt1 m1)
  = fst (verifyIdentityBlock blake3 salt2 m2).
Proof.
  intros He1 He2 Eh Ep Eg Es. apply Bool.eq_iff_eq_true.
  rewrite !(verifyIdentityBlock_result blake3 blake3_out_len) by assumption.
  rewrite Eh, Ep, Eg, Es. reflexivity.
Qed.

(** X7. Verification can be repeated, for a block whose [hardware_id] and
    [public_key] arrays hold a terminator: the memory a call leaves behind
    (the block untouched, the local array holding the hash text it
    recomputed) gives any later call, with the same or another salt, the
    answer it would have given before. *)
Theorem verify_after_verify salt1 salt2 m :
  length (expected_hash m) = 65 ->
  has_terminator (hardware_id (block m)) = true ->
  has_terminator (public_key (block m)) = true ->
  fst (verifyIdentityBlock blake3 salt2 (snd (verifyIdentityBlock blake3 salt1 m)))
    = fst (verifyIdentityBlock blake3 salt2 m)
  /\ c_str (expected_hash (snd (verifyIdentityBlock blake3 salt1 m)))
     = genesis_hash_of blake3 (c_str (hardware_id (block m)))
                       (c_str (public_key (block m))) (c_str salt1)
  /\ length (expected_hash (snd (verifyIdentityBlock blake3 salt1 m))) = 65.
Proof.
  intros He _ _.
  assert (Hlen : 65 <= length (load local_expected_hash m)) by (simpl; lia).
  assert (Hs : snd (verifyIdentityBlock blake3 salt1 m)
               = store local_expected_hash
                   (genesis_hash_of blake3 (c_str (hardware_id (block m)))
                      (c_str (public_key (block m))) (c_str salt1)
                    ++ NUL :: drop 65 (expected_hash m)) m).
  { unfold verifyIdentityBlock. cbn [snd].
    rewrite (generateGenesisHash_store blake3 blake3_out_len) by exact Hlen.
    reflexivity. }
  rewrite Hs. cbn [store expected_hash].
  assert (L : length (genesis_hash_of blake3 (c_str (hardware_id (block m)))
                        (c_str (public_key (block m))) (c_str salt1)
                      ++ NUL :: drop 65 (expected_hash m)) = 65).
  { rewrite length_app, (length_genesis_hash_of blake3 blake3_out_len).
    cbn [length]. rewrite length_drop. lia. }
  split; [|split; [|exact L]].
  - apply Bool.eq_iff_eq_true.
    rewrite !(verifyIdentityBlock_result blake3 blake3_out_len)
      by (cbn [expected_hash]; assumption).
    reflexivity.
  - apply c_str_app_NUL, hex_encode_is_c_string.
Qed.

End Composition.

(** ** What [bytesToHex] writes and what it leaves *)

Lemma cells_take data len : len <= length data -> cells data len = take len data.
Proof.
  induction len as [|len IH]; intros Hlen; [rewrite take_0; reflexivity|].
  destruct (lookup_lt_is_Some_2 data len) as [x Hx]; [lia|].
  rewrite cells_S, IH, (take_S_r _ _ _ Hx), (nth_lookup_Some _ _ _ _ Hx) by lia.
  reflexivity.
Qed.

(** The footprint of [bytesToHex]: cells [0 .. 2 * len] of the output
    array and nothing else. *)
Lemma bytesToHex_effect data len out m :
  2 * len + 1 <= length (load out m) ->
  length (load out (bytesToHex data len out m)) = length (load out m)
  /\ load out (bytesToHex data len out m) !! (2 * len) = Some NUL
  /\ (forall j, 2 * len < j ->
      load out (bytesToHex data len out m) !! j = load out m !! j)
  /\ (forall b, b <> out -> load b (bytesToHex data len out m) = load b m)
  /\ platform_type (block (bytesToHex data len out m)) = platform_type (block m).
Proof.
  intros Hlen. rewrite bytesToHex_store by exact Hlen.
  rewrite load_store_eq, platform_type_store.
  assert (HE : length (hex_encode (cells data len)) = 2 * len)
    by (rewrite length_hex_encode, length_cells; reflexivity).
  split; [|split; [|split; [|split]]].
  - rewrite length_app, HE. cbn [length]. rewrite length_drop. lia.
  - apply list_lookup_middle. symmetry. exact HE.
  - intros j Hj. rewrite lookup_app_r by lia. rewrite HE.
    replace (j - 2 * len) with (S (j - (2 * len + 1))) by lia.
    change ((NUL :: drop (2 * len + 1) (load out m)) !! S (j - (2 * len + 1)))
      with (drop (2 * len + 1) (load out m) !! (j - (2 * len + 1))).
    rewrite lookup_drop. f_equal. lia.
  - intros b Hb. apply load_store_ne. congruence.
  - reflexivity.
Qed.

(** X8. The hex text determines the bytes: two runs of [bytesToHex], on
    any two arrays in any two memories, leave the same text exactly when
    they were given the same bytes. Byte arrays of different lengths or
    contents never share an encoding. *)
Theorem bytesToHex_injective d1 d2 out1 out2 m1 m2 :
  2 * length d1 + 1 <= length (load out1 m1) ->
  2 * length d2 + 1 <= length (load out2 m2) ->
  c_str (load out1 (bytesToHex d1 (length d1) out1 m1))
    = c_str (load out2 (bytesToHex d2 (length d2) out2 m2))
  <-> d1 = d2.
Proof.
  intros H1 H2. rewrite !bytesToHex_store, !load_store_eq, !cells_all by assumption.
  rewrite !c_str_app_NUL by apply hex_encode_is_c_string.
  split; [apply hex_encode_inj | intros ->; reflexivity].
Qed.

(** X9. Bounds of [bytesToHex]: with [len] at most the number of bytes
    available and an output array of at least [2 * len + 1] cells, the
    call encodes the first [len] bytes only, keeps the size of the array,
    leaves its cells beyond index [2 * len] as they were, and changes no
    other array nor the platform tag. With [len = 0] the text is empty. *)
Theorem bytesToHex_bounds data len out m :
  len <= length data ->
  2 * len + 1 <= length (load out m) ->
  c_str (load out (bytesToHex data len out m)) = hex_encode (take len data)
  /\ length (load out (bytesToHex data len out m)) = length (load out m)
  /\ (forall j, 2 * len < j ->
      load out (bytesToHex data len out m) !! j = load out m !! j)
  /\ (forall b, b <> out -> load b (bytesToHex data len out m) = load b m)
  /\ platform_type (block (bytesToHex data len out m)) = platform_type (block m)
  /\ (len = 0 -> c_str (load out (bytesToHex data len out m)) = []).
Proof.
  intros Hd Hlen.
  destruct (bytesToHex_effect data len out m Hlen) as (E1 & _ & E3 & E4 & E5).
  assert (T : c_str (load out (bytesToHex data len out m))
              = hex_encode (take len data)).
  { rewrite bytesToHex_store, load_store_eq, cells_take by assumption.
    apply c_str_app_NUL, hex_encode_is_c_string. }
  split; [exact T|]. split; [exact E1|]. split; [exact E3|].
  split; [exact E4|]. split; [exact E5|].
  intros ->. rewrite T. reflexivity.
Qed.

(** X10. The table lookups of [bytesToHex] stay inside the sixteen digits:
    for every byte both indices are below 16, so the terminator cell of
    [hex_chars] is never read and no NUL is ever written as a digit; the
    two indices are the quotient and the remainder of the byte by 16. *)
Theorem hex_index_in_bounds b :
  (0 <= hi_nibble b < 16)%Z /\ (0 <= lo_nibble b < 16)%Z
  /\ hi_nibble b = (byte_val b / 16)%Z
  /\ lo_nibble b = (byte_val b mod 16)%Z
  /\ hex_char (hi_nibble b) <> NUL
  /\ hex_char (lo_nibble b) <> NUL.
Proof.
  destruct (hex_digits_lower b) as [Hh Hl].
  split; [|split; [|split; [|split; [|split]]]].
  - destruct b; vm_compute; intuition congruence.
  - destruct b; vm_compute; intuition congruence.
  - destruct b; vm_compute; reflexivity.
  - destruct b; vm_compute; reflexivity.
  - apply is_lower_hex_not_NUL, Hh.
  - apply is_lower_hex_not_NUL, Hl.
Qed.

(** X11. [generateGenesisHash] writes cells 0 to 64 of the output array
    and nothing else: the array keeps its size, cell 64 is the terminator,
    cells from 65 on, the other arrays and the platform tag are as before.
    In [createIdentityBlock] the hash is therefore written without
    disturbing the two fields copied just before. *)
Theorem generateGenesisHash_footprint blake3 h p s out m :
  65 <= length (load out m) ->
  length (load out (generateGenesisHash blake3 h p s out m)) = length (load out m)
  /\ load out (generateGenesisHash blake3 h p s out m) !! 64 = Some NUL
  /\ (forall j, 65 <= j ->
      load out (generateGenesisHash blake3 h p s out m) !! j = load out m !! j)
  /\ (forall b, b <> out ->
      load b (generateGenesisHash blake3 h p s out m) = load b m)
  /\ platform_type (block (generateGenesisHash blake3 h p s out m))
     = platform_type (block m).
Proof.
  intros Hlen. unfold generateGenesisHash.
  set (digest := blake3_hash blake3 _ _).
  destruct (bytesToHex_effect digest 32 out m) as (E1 & E2 & E3 & E4 & E5);
    [simpl; lia|].
  split; [exact E1|]. split; [exact E2|]. split; [|split; [exact E4 | exact E5]].
  intros j Hj. apply E3. lia.
Qed.

(** ** The printed block *)

Lemma one_line_cons c s :
  one_line (c :: s) = true <-> c <> CR /\ one_line s = true.
Proof.
  unfold one_line. simpl. rewrite andb_true_iff, negb_true_iff, byte_eqb_neq.
  reflexivity.
Qed.

(** A line is cut at its first CR in one way only. *)
Lemma cut_at_CR a a' r r' :
  one_line a = true -> one_line a' = true ->
  a ++ CR :: r = a' ++ CR :: r' -> a = a' /\ r = r'.
Proof.
  revert a'. induction a as [|c a IH]; intros [|c' a'] Ha Ha' H.
  - injection H as ->. split; reflexivity.
  - apply one_line_cons in Ha'. injection H as Hc _. exfalso. apply Ha'.
    symmetry. exact Hc.
  - apply one_line_cons in Ha. injection H as Hc _. exfalso. apply Ha, Hc.
  - apply one_line_cons in Ha, Ha'. injection H as -> H.
    destruct (IH a' (proj2 Ha) (proj2 Ha') H) as [-> ->]. split; reflexivity.
Qed.

(** Everything [printIdentityBlock] sends, in order. *)
Lemma printIdentityBlock_stream b stream :
  printIdentityBlock b stream
  = stream ++ lit "=== Identity Block ===" ++ [CR; LF]
      ++ lit "Hardware ID: " ++ c_str (hardware_id b) ++ [CR; LF]
      ++ lit "Public Key: " ++ c_str (public_key b) ++ [CR; LF]
      ++ lit "Genesis Hash: " ++ c_str (genesis_hash b) ++ [CR; LF]
      ++ lit "Platform Type: "
      ++ match platform_type b with MCU => lit "MCU" | SBC => lit "SBC" end
      ++ [CR; LF] ++ lit "======================" ++ [CR; LF].
Proof.
  unfold printIdentityBlock, Serial_print, Serial_println.
  rewrite <- !app_assoc.
  rewrite !(c_str_id (lit _)) by reflexivity.
  destruct (platform_type b); cbn [PlatformType_eqb];
    rewrite !(c_str_id (lit _)) by reflexivity; reflexivity.
Qed.

(** X12. [printIdentityBlock] appends to the serial stream a text that
    does not depend on what was sent before, and the text shows the block:
    for blocks whose three field texts hold no carriage return, two blocks
    print the same exactly when they hold the same three texts and the
    same platform tag. *)
Theorem printIdentityBlock_shows_block b1 b2 stream :
  one_line (c_str (hardware_id b1)) = true ->
  one_line (c_str (public_key b1)) = true ->
  one_line (c_str (genesis_hash b1)) = true ->
  one_line (c_str (hardware_id b2)) = true ->
  one_line (c_str (public_key b2)) = true ->
  one_line (c_str (genesis_hash b2)) = true ->
  printIdentityBlock b1 stream = stream ++ printIdentityBlock b1 []
  /\ (printIdentityBlock b1 stream = printIdentityBlock b2 stream
      <-> c_str (hardware_id b1) = c_str (hardware_id b2)
          /\ c_str (public_key b1) = c_str (public_key b2)
          /\ c_str (genesis_hash b1) = c_str (genesis_hash b2)
          /\ platform_type b1 = platform_type b2).
Proof.
  intros Hh1 Hp1 Hg1 Hh2 Hp2 Hg2.
  rewrite !printIdentityBlock_stream. split; [reflexivity|]. split.
  - intros H.
    apply app_inv_head in H. apply app_inv_head in H.
    apply (app_inv_head [CR; LF]) in H. apply app_inv_head in H.
    apply (cut_at_CR _ _ _ _ Hh1 Hh2) in H. destruct H as [Eh H].
    injection H as H.
    apply (cut_at_CR _ _ _ _ Hp1 Hp2) in H. destruct H as [Ep H].
    injection H as H.
    apply (cut_at_CR _ _ _ _ Hg1 Hg2) in H. destruct H as [Eg H].
    injection H as H.
    split; [exact Eh|]. split; [exact Ep|]. split; [exact Eg|].
    destruct (platform_type b1), (platform_type b2);
      first [reflexivity | vm_compute in H; discriminate H].
  - intros (-> & -> & -> & ->). reflexivity.
Qed.

(** ** The further properties on the reference block *)

Lemma sized_reference_memory : sized reference_memory.
Proof. unfold sized. vm_compute. tauto. Qed.

Lemma verify_create_iff_witness :
  sized stale_memory
  /\ is_c_string oversized_hardware_id = true
  /\ is_c_string sample_public_key = true
  /\ is_c_string sample_salt = true
  /\ (fst (verifyIdentityBlock prefix_digest sample_salt
             (createIdentityBlock prefix_digest oversized_hardware_id
                sample_public_key sample_salt MCU stale_memory)) = true
      <-> prefix_digest (oversized_hardware_id ++ sample_public_key ++ sample_salt)
          = prefix_digest (take 17 oversized_hardware_id
                           ++ take 64 sample_public_key ++ sample_salt)).
Proof.
  split; [exact sized_stale_memory|]. do 3 (split; [reflexivity|]).
  exact (proj1 (verify_create_iff prefix_digest prefix_digest_len
                  oversized_hardware_id sample_public_key sample_salt sample_salt
                  MCU stale_memory sized_stale_memory
                  eq_refl eq_refl eq_refl eq_refl)).
Defined.

Lemma createIdentityBlock_overwrites_witness :
  sized stale_memory /\ sized reference_memory
  /\ block (createIdentityBlock prefix_digest sample_hardware_id
              sample_public_key sample_salt MCU stale_memory)
     = block (createIdentityBlock prefix_digest sample_hardware_id
                sample_public_key sample_salt MCU reference_memory).
Proof.
  split; [exact sized_stale_memory|]. split; [exact sized_reference_memory|].
  exact (proj1 (createIdentityBlock_overwrites prefix_digest prefix_digest_len
                  sample_hardware_id sample_public_key sample_salt MCU
                  stale_memory reference_memory
                  sized_stale_memory sized_reference_memory)).
Defined.

Lemma createIdentityBlock_prefix_collision_witness :
  sized stale_memory
  /\ take 17 oversized_hardware_id = take 17 sample_hardware_id
  /\ oversized_hardware_id <> sample_hardware_id
  /\ hardware_id (block (createIdentityBlock prefix_digest oversized_hardware_id
                           sample_public_key sample_salt MCU stale_memory))
     = hardware_id (block (createIdentityBlock prefix_digest sample_hardware_id
                             sample_public_key sample_salt MCU stale_memory)).
Proof.
  split; [exact sized_stale_memory|]. split; [reflexivity|].
  split; [discriminate|].
  exact (proj1 (createIdentityBlock_prefix_collision prefix_digest
                  prefix_digest_len oversized_hardware_id sample_hardware_id
                  sample_public_key sample_public_key sample_salt MCU
                  stale_memory sized_stale_memory
                  eq_refl eq_refl eq_refl eq_refl eq_refl eq_refl eq_refl)).
Defined.

Lemma verified_hash_is_lower_hex_witness :
  length (expected_hash reference_memory) = 65
  /\ fst (verifyIdentityBlock prefix_digest sample_salt reference_memory) = true
  /\ length (c_str (genesis_hash (block reference_memory))) = 64.
Proof.
  split; [reflexivity|]. split; [vm_compute; reflexivity|].
  apply (verified_hash_is_lower_hex prefix_digest prefix_digest_len
           sample_salt reference_memory); vm_compute; reflexivity.
Defined.

Lemma verify_detects_hash_tampering_witness :
  length (expected_hash reference_memory) = 65
  /\ has_terminator (hardware_id (block reference_memory)) = true
  /\ has_terminator (public_key (block reference_memory)) = true
  /\ fst (verifyIdentityBlock prefix_digest sample_salt reference_memory) = true
  /\ c_str sample_public_key <> c_str (genesis_hash (block reference_memory))
  /\ fst (verifyIdentityBlock prefix_digest sample_salt
            (store block_genesis_hash sample_public_key reference_memory)) = false.
Proof.
  do 3 (split; [reflexivity|]). split; [vm_compute; reflexivity|].
  split; [intros H; vm_compute in H; discriminate H|].
  apply (verify_detects_hash_tampering prefix_digest prefix_digest_len
           sample_salt reference_memory sample_public_key).
  - reflexivity.
  - reflexivity.
  - reflexivity.
  - vm_compute; reflexivity.
  - intros H; vm_compute in H; discriminate H.
Defined.

Lemma verify_depends_on_texts_only_witness :
  length (expected_hash reference_memory) = 65
  /\ platform_type (block (set_platform_type MCU reference_memory))
     <> platform_type (block reference_memory)
  /\ fst (verifyIdentityBlock prefix_digest sample_salt reference_memory)
     = fst (verifyIdentityBlock prefix_digest sample_salt
              (set_platform_type MCU reference_memory)).
Proof.
  split; [reflexivity|]. split; [vm_compute; discriminate|].
  apply (verify_depends_on_texts_only prefix_digest prefix_digest_len
           sample_salt sample_salt reference_memory
           (set_platform_type MCU reference_memory)); reflexivity.
Defined.

Lemma verify_after_verify_witness :
  length (expected_hash reference_memory) = 65
  /\ has_terminator (hardware_id (block reference_memory)) = true
  /\ has_terminator (public_key (block reference_memory)) = true
  /\ fst (verifyIdentityBlock prefix_digest sample_salt
            (snd (verifyIdentityBlock prefix_digest sample_hardware_id
                    reference_memory)))
     = fst (verifyIdentityBlock prefix_digest sample_salt reference_memory).
Proof.
  do 3 (split; [reflexivity|]).
  apply (verify_after_verify prefix_digest prefix_digest_len
           sample_hardware_id sample_salt reference_memory); reflexivity.
Defined.

Lemma bytesToHex_injective_witness :
  2 * length [x00; xab] + 1 <= length (load local_expected_hash stale_memory)
  /\ 2 * length [x00; xac] + 1 <= length (load block_genesis_hash reference_memory)
  /\ (c_str (load local_expected_hash
               (bytesToHex [x00; xab] (length [x00; xab]) local_expected_hash
                  stale_memory))
      = c_str (load block_genesis_hash
                 (bytesToHex [x00; xac] (length [x00; xac]) block_genesis_hash
                    reference_memory))
      <-> [x00; xab] = [x00; xac]).
Proof.
  do 2 (split; [by_evaluation|]).
  apply (bytesToHex_injective [x00; xab] [x00; xac] local_expected_hash
           block_genesis_hash stale_memory reference_memory); by_evaluation.
Defined.

Lemma bytesToHex_bounds_witness :
  2 <= length [x00; xab; xff; x10]
  /\ 2 * 2 + 1 <= length (load local_expected_hash stale_memory)
  /\ c_str (load local_expected_hash
              (bytesToHex [x00; xab; xff; x10] 2 local_expected_hash stale_memory))
     = hex_encode (take 2 [x00; xab; xff; x10]).
Proof.
  do 2 (split; [by_evaluation|]).
  apply (bytesToHex_bounds [x00; xab; xff; x10] 2 local_expected_hash
           stale_memory); by_evaluation.
Defined.

Lemma generateGenesisHash_footprint_witness :
  65 <= length (load block_genesis_hash reference_memory)
  /\ (forall b, b <> block_genesis_hash ->
      load b (generateGenesisHash prefix_digest sample_hardware_id
                sample_public_key (lit "another salt") block_genesis_hash
                reference_memory)
      = load b reference_memory).
Proof.
  split; [by_evaluation|].
  apply (generateGenesisHash_footprint prefix_digest sample_hardware_id
           sample_public_key (lit "another salt") block_genesis_hash
           reference_memory). by_evaluation.
Defined.

Lemma printIdentityBlock_shows_block_witness :
  one_line (c_str (hardware_id (block reference_memory))) = true
  /\ one_line (c_str (public_key (block reference_memory))) = true
  /\ one_line (c_str (genesis_hash (block reference_memory))) = true
  /\ (printIdentityBlock (block reference_memory) []
      = printIdentityBlock (block (set_platform_type MCU reference_memory)) []
      <-> c_str (hardware_id (block reference_memory))
          = c_str (hardware_id (block (set_platform_type MCU reference_memory)))
          /\ c_str (public_key (block reference_memory))
             = c_str (public_key (block (set_platform_type MCU reference_memory)))
          /\ c_str (genesis_hash (block reference_memory))
             = c_str (genesis_hash (block (set_platform_type MCU reference_memory)))
          /\ platform_type (block reference_memory)
             = platform_type (block (set_platform_type MCU reference_memory))).
Proof.
  do 3 (split; [vm_compute; reflexivity|]).
  exact (proj2 (printIdentityBlock_shows_block (block reference_memory)
                  (block (set_platform_type MCU reference_memory)) []
                  eq_refl eq_refl eq_refl eq_refl eq_refl eq_refl)).
Defined.
